(** * MPIConnection: a shallow embedding of [MPIConnection.hpp]

    The header defines the fail-fast macro [MPI_CHECK], the two
    constructors, the destructor and the eight [const int &] accessors of
    class [MPIConnection]; it only declares [init], [finalize], [barrier],
    [locale_barrier] and [hostname].

    C [int]s are [Z]; the process is a state transformer over a [Machine]
    (the object, the transport runtime, the error stream, the host name)
    whose result is a normal return, a call of [exit], or a C++ exception
    leaving the function. *)

From Stdlib Require Import ZArith String Ascii List Bool Arith Lia Permutation.
Import ListNotations.

Local Open Scope string_scope.
Local Open Scope Z_scope.

(** ** Control: return, [exit(status)], or an exception *)

Inductive Outcome (St A : Type) : Type :=
| Returned (a : A) (s : St)
| Exited (status : Z) (s : St)
| Thrown (s : St).

Arguments Returned {St A} a s.
Arguments Exited {St A} status s.
Arguments Thrown {St A} s.

Definition Proc (St A : Type) : Type := St -> Outcome St A.

Definition ret {St A} (a : A) : Proc St A := fun s => Returned a s.

Definition bind {St A B} (c : Proc St A) (k : A -> Proc St B) : Proc St B :=
  fun s =>
    match c s with
    | Returned a s' => k a s'
    | Exited status s' => Exited status s'
    | Thrown s' => Thrown s'
    end.

(** [exit(status)] never comes back. *)
Definition exit {St A} (status : Z) : Proc St A := fun s => Exited status s.

Declare Scope proc_scope.
Delimit Scope proc_scope with proc.
Notation "x <- c ;; k" := (bind c (fun x => k))
  (at level 61, c at next level, right associativity) : proc_scope.
Notation "c ;; k" := (bind c (fun _ => k))
  (at level 61, right associativity) : proc_scope.
Local Open Scope proc_scope.

(** The state an outcome ends in, whichever way control left. *)
Definition final_state {St A} (r : Outcome St A) : St :=
  match r with
  | Returned _ s => s
  | Exited _ s => s
  | Thrown s => s
  end.

Definition throws {St A} (r : Outcome St A) : bool :=
  match r with
  | Thrown _ => true
  | _ => false
  end.

(** ** The object *)

(** [MPI_Comm] is an opaque handle of the transport. *)
Definition MPI_Comm : Type := Z.

(** The six private [int] members a reference member can be bound to. *)
Inductive IntRef : Type :=
| at_rank_
| at_size_
| at_locales_
| at_locale_
| at_locale_rank_
| at_locale_size_.

(** The class: six private ints, two public communicators (left
    indeterminate by both constructors, hence [option]), and the eight
    public [const int &] members, each recording the member it is bound
    to. *)
Record MPIConnection : Type := mkMPIConnection {
  rank_ : Z;
  size_ : Z;
  locales_ : Z;
  locale_ : Z;
  locale_rank_ : Z;
  locale_size_ : Z;
  main_communicator_ : option MPI_Comm;
  locale_communicator_ : option MPI_Comm;
  rank : IntRef;
  size : IntRef;
  ranks : IntRef;
  locales : IntRef;
  locale : IntRef;
  locale_rank : IntRef;
  locale_size : IntRef;
  locale_ranks : IntRef
}.

(** Reading through a reference. *)
Definition load (o : MPIConnection) (r : IntRef) : Z :=
  match r with
  | at_rank_ => rank_ o
  | at_size_ => size_ o
  | at_locales_ => locales_ o
  | at_locale_ => locale_ o
  | at_locale_rank_ => locale_rank_ o
  | at_locale_size_ => locale_size_ o
  end.

(** An assignment to a private int member; the reference members cannot
    be reseated. *)
Definition store (r : IntRef) (v : Z) (o : MPIConnection) : MPIConnection :=
  mkMPIConnection
    (match r with at_rank_ => v | _ => rank_ o end)
    (match r with at_size_ => v | _ => size_ o end)
    (match r with at_locales_ => v | _ => locales_ o end)
    (match r with at_locale_ => v | _ => locale_ o end)
    (match r with at_locale_rank_ => v | _ => locale_rank_ o end)
    (match r with at_locale_size_ => v | _ => locale_size_ o end)
    (main_communicator_ o) (locale_communicator_ o)
    (rank o) (size o) (ranks o) (locales o)
    (locale o) (locale_rank o) (locale_size o) (locale_ranks o).

Definition set_main_communicator_ (c : MPI_Comm) (o : MPIConnection) : MPIConnection :=
  mkMPIConnection
    (rank_ o) (size_ o) (locales_ o) (locale_ o) (locale_rank_ o) (locale_size_ o)
    (Some c) (locale_communicator_ o)
    (rank o) (size o) (ranks o) (locales o)
    (locale o) (locale_rank o) (locale_size o) (locale_ranks o).

Definition set_locale_communicator_ (c : MPI_Comm) (o : MPIConnection) : MPIConnection :=
  mkMPIConnection
    (rank_ o) (size_ o) (locales_ o) (locale_ o) (locale_rank_ o) (locale_size_ o)
    (main_communicator_ o) (Some c)
    (rank o) (size o) (ranks o) (locales o)
    (locale o) (locale_rank o) (locale_size o) (locale_ranks o).

(** The six ints of an object, in declaration order. *)
Definition int_fields (o : MPIConnection) : list Z :=
  [rank_ o; size_ o; locales_ o; locale_ o; locale_rank_ o; locale_size_ o].

(** What the eight reference members are bound to, in declaration
    order. *)
Definition bindings (o : MPIConnection) : list IntRef :=
  [rank o; size o; ranks o; locales o; locale o; locale_rank o; locale_size o;
   locale_ranks o].

(** The eight public accessors. *)
Inductive Accessor : Type :=
| acc_rank
| acc_size
| acc_ranks
| acc_locales
| acc_locale
| acc_locale_rank
| acc_locale_size
| acc_locale_ranks.

Definition accessor_ref (a : Accessor) (o : MPIConnection) : IntRef :=
  match a with
  | acc_rank => rank o
  | acc_size => size o
  | acc_ranks => ranks o
  | acc_locales => locales o
  | acc_locale => locale o
  | acc_locale_rank => locale_rank o
  | acc_locale_size => locale_size o
  | acc_locale_ranks => locale_ranks o
  end.

(** [o.a] for a public accessor [a]. *)
Definition get (a : Accessor) (o : MPIConnection) : Z :=
  load o (accessor_ref a o).

(** ** The machine *)

Record Machine (T : Type) : Type := mkMachine {
  self : MPIConnection;   (* the object, [*this] *)
  transport : T;          (* state of the MPI runtime *)
  cerr : string;          (* everything written to [std::cerr] so far *)
  os_hostname : string    (* the host name the operating system reports *)
}.

Arguments mkMachine {T} self transport cerr os_hostname.
Arguments self {T} m.
Arguments transport {T} m.
Arguments cerr {T} m.
Arguments os_hostname {T} m.

Definition with_self {T} (o : MPIConnection) (m : Machine T) : Machine T :=
  mkMachine o (transport m) (cerr m) (os_hostname m).

Definition with_transport {T} (t : T) (m : Machine T) : Machine T :=
  mkMachine (self m) t (cerr m) (os_hostname m).

Definition with_cerr {T} (e : string) (m : Machine T) : Machine T :=
  mkMachine (self m) (transport m) e (os_hostname m).

(** A computation keeps an observation [obs] of the machine when the
    machine it ends in, however control leaves, shows the same value. *)
Definition keeps {T X A} (obs : Machine T -> X) (c : Proc (Machine T) A) : Prop :=
  forall m, obs (final_state (c m)) = obs m.

(** [std::cerr << s] *)
Definition cerr_write {T} (s : string) : Proc (Machine T) unit :=
  fun m => Returned tt (with_cerr (cerr m ++ s) m).

(** The newline character, and what [std::endl] puts on the stream. *)
Definition newline : string := String "010"%char EmptyString.
Definition endl : string := newline.

(** Number of line ends in a piece of output. *)
Fixpoint count_newlines (s : string) : nat :=
  match s with
  | EmptyString => 0%nat
  | String c rest =>
      ((if Ascii.eqb c "010"%char then 1 else 0) + count_newlines rest)%nat
  end.

(** ** The transport, as far as the header calls it *)

(** [MPI_Finalized( &flag )] and [MPI_Error_string( code, buf, &len )]:
    an MPI call returns its status and what it wrote through its
    out-parameters, and leaves the runtime in a new state. *)
Class Transport (T : Type) : Type := {
  MPI_Finalized : T -> Z * Z * T;
  MPI_Error_string : Z -> string
}.

(** A call into the runtime, lifted to the machine. *)
Definition mpi {T A} (op : T -> Z * A * T) : Proc (Machine T) (Z * A) :=
  fun m =>
    let '(retval, out, t') := op (transport m) in
    Returned (retval, out) (with_transport t' m).

Section Header.
Context {T : Type} `{Transport T}.

(** The text the macro prints for call text [mpi_call] and status
    [retval]. *)
Definition failure_message (mpi_call : string) (retval : Z) : string :=
  ("MPI call failed: " ++ mpi_call ++ ": ") ++ MPI_Error_string retval ++ newline.

(** [#define MPI_CHECK( mpi_call )]: [mpi_call] is the stringified
    argument, [call] the evaluation of the argument, which yields the
    [int] it returns together with its out-parameters. *)
Definition MPI_CHECK {A} (mpi_call : string) (call : Proc (Machine T) (Z * A))
  : Proc (Machine T) A :=
  r <- call ;;
  let '(retval, out) := r in
  if negb (retval =? 0) then
    let error_string := MPI_Error_string retval in
    cerr_write ("MPI call failed: " ++ mpi_call ++ ": ") ;;
    cerr_write error_string ;;
    cerr_write newline ;;
    exit 1
  else ret out.

(** [MPIConnection()] *)
Definition MPIConnection_default : MPIConnection :=
  {| rank_ := -1;
     size_ := -1;
     locales_ := -1;
     locale_ := -1;
     locale_rank_ := -1;
     locale_size_ := -1;
     main_communicator_ := None;
     locale_communicator_ := None;
     rank := at_rank_;
     size := at_size_;
     ranks := at_size_;
     locales := at_locales_;
     locale := at_locale_;
     locale_rank := at_locale_rank_;
     locale_size := at_locale_size_;
     locale_ranks := at_locale_size_ |}.

Definition MPIConnection_ctor : Proc (Machine T) unit :=
  fun m => Returned tt (with_self MPIConnection_default m).

(** The members the header declares and does not define. *)
Variable init : list string -> Proc (Machine T) unit.
Variable finalize : Proc (Machine T) unit.

(** [MPIConnection( int * argc_p, char ** argv_p[] )] *)
Definition MPIConnection_ctor_args (args : list string) : Proc (Machine T) unit :=
  (fun m =>
     Returned tt
       (with_self
          {| rank_ := -1;
             size_ := -1;
             locales_ := -1;
             locale_ := -1;
             locale_rank_ := -1;
             locale_size_ := -1;
             main_communicator_ := None;
             locale_communicator_ := None;
             rank := at_rank_;
             size := at_size_;
             ranks := at_size_;
             locales := at_locales_;
             locale := at_locale_;
             locale_rank := at_locale_rank_;
             locale_size := at_locale_size_;
             locale_ranks := at_locale_size_ |} m)) ;;
  init args.

(** The convenience constructor as the specification words it:
    default construction followed by [init]. *)
Definition default_then_init (args : list string) : Proc (Machine T) unit :=
  MPIConnection_ctor ;; init args.

Definition destructor_warning : string :=
  "Warning: you should probably call finalize() before MPIConnection goes out of scope, or you may occassionally see deadlock.".

(** The machine as the destructor leaves it to [finalize()]: the query
    has moved the runtime to [t'] and the warning line is on the error
    stream. *)
Definition after_warning (t' : T) (m : Machine T) : Machine T :=
  with_cerr (cerr (with_transport t' m) ++ destructor_warning ++ endl)
            (with_transport t' m).

(** [~MPIConnection()] *)
Definition destructor : Proc (Machine T) unit :=
  finalized <- MPI_CHECK "MPI_Finalized( &finalized )" (mpi MPI_Finalized) ;;
  if finalized =? 0 then
    cerr_write destructor_warning ;;
    cerr_write endl ;;
    finalize
  else ret tt.

End Header.

(** ** The members the header only declares *)

(** Modelled from the spec: what the group-splitting facility of section
    4.1 (steps 3 and 5) hands back to a caller, namely the sub-domain it
    joined, the index of that sub-domain and the number of sub-domains
    created; the call itself is made in the missing definition of
    [init]. *)
Record Split : Type := mkSplit {
  sub_domain : MPI_Comm;
  sub_index : Z;
  sub_count : Z
}.

(** Modelled from the spec: the transport operations of section 6 that the
    header itself never calls (bootstrap, finalize, rank query, size
    query, split by key, barrier) and the handle of the global domain.
    They are called from the definitions of [init], [finalize],
    [barrier] and [locale_barrier], which are not in [MPIConnection.hpp]. *)
Class Collectives (T : Type) : Type := {
  global_domain : MPI_Comm;
  transport_bootstrap : list string -> T -> Z * unit * T;
  transport_finalize : T -> Z * unit * T;
  rank_query : MPI_Comm -> T -> Z * Z * T;
  size_query : MPI_Comm -> T -> Z * Z * T;
  split_by_key : MPI_Comm -> string -> T -> Z * Split * T;
  transport_barrier : MPI_Comm -> T -> Z * unit * T
}.

(** Modelled from the spec: the handle a barrier is called on, read from
    a communicator member (the definitions of [barrier] and
    [locale_barrier] are missing): the handle stored there, or, before
    [init] has stored one, a handle no domain has. *)
Definition handle_of (c : option MPI_Comm) : MPI_Comm :=
  match c with
  | Some h => h
  | None => -1
  end.

Section Members.
Context {T : Type} `{Transport T} `{Collectives T}.

Definition assign (r : IntRef) (v : Z) : Proc (Machine T) unit :=
  fun m => Returned tt (with_self (store r v (self m)) m).

(** Modelled from the spec: [hostname()], one look-up of the host name
    the operating system reports, nothing cached and nothing written
    (section 4.1, "Hostname query"; section 6, "Process environment"). *)
Definition hostname : Proc (Machine T) string :=
  fun m => Returned (os_hostname m) m.

(** Modelled from the spec: [init], the five steps of section 4.1
    ("Construction / Initialization"), every transport call routed
    through [MPI_CHECK]; the node identifier is the host name. *)
Definition init (args : list string) : Proc (Machine T) unit :=
  MPI_CHECK "bootstrap" (mpi (transport_bootstrap args)) ;;
  (fun m => Returned tt (with_self (set_main_communicator_ global_domain (self m)) m)) ;;
  r <- MPI_CHECK "rank query" (mpi (rank_query global_domain)) ;;
  assign at_rank_ r ;;
  n <- MPI_CHECK "size query" (mpi (size_query global_domain)) ;;
  assign at_size_ n ;;
  node <- hostname ;;
  s <- MPI_CHECK "split by key" (mpi (split_by_key global_domain node)) ;;
  (fun m => Returned tt (with_self (set_locale_communicator_ (sub_domain s) (self m)) m)) ;;
  lr <- MPI_CHECK "rank query" (mpi (rank_query (sub_domain s))) ;;
  assign at_locale_rank_ lr ;;
  ls <- MPI_CHECK "size query" (mpi (size_query (sub_domain s))) ;;
  assign at_locale_size_ ls ;;
  assign at_locales_ (sub_count s) ;;
  assign at_locale_ (sub_index s).

(** Modelled from the spec: [finalize()], the release of the transport
    runtime, through the fail-fast wrapper, with no guard of its own
    against a second call (section 4.1, "Teardown"). *)
Definition finalize : Proc (Machine T) unit :=
  MPI_CHECK "finalize" (mpi transport_finalize).

(** Modelled from the spec: [barrier()], the transport's barrier on the
    global domain, through the fail-fast wrapper (section 4.1,
    "Barriers"). What the call does while it is blocked is the subject
    of [Rendezvous] below. *)
Definition barrier : Proc (Machine T) unit :=
  fun m => MPI_CHECK "barrier"
             (mpi (transport_barrier (handle_of (main_communicator_ (self m))))) m.

(** Modelled from the spec: [locale_barrier()], the same on the
    node-local domain. *)
Definition locale_barrier : Proc (Machine T) unit :=
  fun m => MPI_CHECK "barrier"
             (mpi (transport_barrier (handle_of (locale_communicator_ (self m))))) m.

(** Reading a public accessor. *)
Definition read (a : Accessor) : Proc (Machine T) Z :=
  fun m => Returned (get a (self m)) m.

(** What client code can do with a handle. *)
Inductive Call : Type :=
| CallInit (args : list string)
| CallFinalize
| CallBarrier
| CallLocaleBarrier
| CallHostname
| CallRead (a : Accessor).

Definition perform (c : Call) : Proc (Machine T) unit :=
  match c with
  | CallInit args => init args
  | CallFinalize => finalize
  | CallBarrier => barrier
  | CallLocaleBarrier => locale_barrier
  | CallHostname => _ <- hostname ;; ret tt
  | CallRead a => _ <- read a ;; ret tt
  end.

Fixpoint perform_all (cs : list Call) : Proc (Machine T) unit :=
  match cs with
  | [] => ret tt
  | c :: rest => perform c ;; perform_all rest
  end.

Definition is_init (c : Call) : bool :=
  match c with
  | CallInit _ => true
  | _ => false
  end.

(** [hostname()] called twice in a row. *)
Definition hostname_twice : Proc (Machine T) (string * string) :=
  first <- hostname ;;
  second <- hostname ;;
  ret (first, second).

End Members.


(** ** A simulated transport *)

(** Node identifiers in the order they are first met. *)
Fixpoint distinct (seen : list string) (l : list string) : list string :=
  match l with
  | [] => []
  | x :: rest =>
      if existsb (String.eqb x) seen then distinct seen rest
      else x :: distinct (x :: seen) rest
  end.

(** Position of the first [k] in [l] ([length l] when there is none). *)
Fixpoint index_of (k : string) (l : list string) : nat :=
  match l with
  | [] => 0%nat
  | x :: rest => if String.eqb k x then 0%nat else S (index_of k rest)
  end.

(** How many of [l] carry the key [k]. *)
Definition members (k : string) (l : list string) : nat :=
  length (filter (String.eqb k) l).

Module Sim.

(** Modelled from the spec: one process's view of the transport in a
    job whose processes were launched on the nodes [hosts] (entry [r] is
    the node of global rank [r]); the transport itself is an external
    collaborator. Ranks are positions, the split groups equal keys, numbers
    the groups in the order their keys are first met and ranks a group by
    global rank (sections 3 and 4.1); a call made before the bootstrap
    or after finalize, or on a handle no domain has, fails. *)
Record State : Type := mkState {
  hosts : list string;
  me : nat;
  key : option string;      (* the key this process split by, once it has *)
  initialized : bool;
  finalized : bool
}.

Definition live (t : State) : bool := initialized t && negb (finalized t).

(** The keys of all processes once this one has split by [k]. *)
Definition keys (t : State) (k : string) : list string :=
  firstn (me t) (hosts t) ++ k :: skipn (S (me t)) (hosts t).

Definition MPI_ERR_OTHER : Z := 15.
Definition MPI_ERR_COMM : Z := 5.

Definition finalized_query (t : State) : Z * Z * State :=
  (0, if finalized t then 1 else 0, t).

Definition error_string (code : Z) : string :=
  if code =? MPI_ERR_COMM then "Invalid communicator"
  else if code =? MPI_ERR_OTHER then "Other MPI error"
  else "Unknown error class".

Definition bootstrap (args : list string) (t : State) : Z * unit * State :=
  if initialized t || finalized t then (MPI_ERR_OTHER, tt, t)
  else (0, tt, mkState (hosts t) (me t) (key t) true (finalized t)).

Definition finalize (t : State) : Z * unit * State :=
  if live t then (0, tt, mkState (hosts t) (me t) (key t) (initialized t) true)
  else (MPI_ERR_OTHER, tt, t).

Definition world : MPI_Comm := 0.
Definition node_local : MPI_Comm := 1.

Definition rank_of (c : MPI_Comm) (t : State) : Z * Z * State :=
  if negb (live t) then (MPI_ERR_OTHER, 0, t)
  else if c =? world then (0, Z.of_nat (me t), t)
  else if c =? node_local then
    match key t with
    | Some k => (0, Z.of_nat (members k (firstn (me t) (keys t k))), t)
    | None => (MPI_ERR_COMM, 0, t)
    end
  else (MPI_ERR_COMM, 0, t).

Definition size_of (c : MPI_Comm) (t : State) : Z * Z * State :=
  if negb (live t) then (MPI_ERR_OTHER, 0, t)
  else if c =? world then (0, Z.of_nat (length (hosts t)), t)
  else if c =? node_local then
    match key t with
    | Some k => (0, Z.of_nat (members k (keys t k)), t)
    | None => (MPI_ERR_COMM, 0, t)
    end
  else (MPI_ERR_COMM, 0, t).

Definition split (c : MPI_Comm) (k : string) (t : State) : Z * Split * State :=
  if negb (live t) then (MPI_ERR_OTHER, mkSplit (-1) 0 0, t)
  else if c =? world then
    (0,
     mkSplit node_local
       (Z.of_nat (index_of k (distinct [] (keys t k))))
       (Z.of_nat (length (distinct [] (keys t k)))),
     mkState (hosts t) (me t) (Some k) (initialized t) (finalized t))
  else (MPI_ERR_COMM, mkSplit (-1) 0 0, t).

Definition barrier_on (c : MPI_Comm) (t : State) : Z * unit * State :=
  if negb (live t) then (MPI_ERR_OTHER, tt, t)
  else if c =? world then (0, tt, t)
  else if (c =? node_local) && (match key t with Some _ => true | None => false end) then (0, tt, t)
  else (MPI_ERR_COMM, tt, t).

#[global] Instance transport : Transport State := {
  MPI_Finalized := finalized_query;
  MPI_Error_string := error_string
}.

#[global] Instance collectives : Collectives State := {
  global_domain := world;
  transport_bootstrap := bootstrap;
  transport_finalize := finalize;
  rank_query := rank_of;
  size_query := size_of;
  split_by_key := split;
  transport_barrier := barrier_on
}.

(** Process [r] of a job launched on [hs], before anything has run; the
    object's storage holds whatever was there. *)
Definition boot (hs : list string) (r : nat) (garbage : MPIConnection)
  : Machine State :=
  mkMachine garbage (mkState hs r None false false) ""
            (nth r hs "").

End Sim.

(** The scenario of section 8: every process of a job launched on [hs]
    constructs a handle and calls [init]. *)
Definition job_init (hs : list string) (args : list string) (garbage : MPIConnection)
  (r : nat) : Outcome (Machine Sim.State) unit :=
  (MPIConnection_ctor ;; init args) (Sim.boot hs r garbage).

(** Three machines of a job of two processes on the node "node0", seen
    from global rank 0: before anything has run on a default-constructed
    handle, after [init], and after [init] and [finalize]. *)
Definition fresh_process : Machine Sim.State :=
  Sim.boot ["node0"; "node0"] 0 MPIConnection_default.

Definition initialized_process : Machine Sim.State :=
  final_state (job_init ["node0"; "node0"] [] MPIConnection_default 0).

Definition finalized_process : Machine Sim.State :=
  final_state (finalize initialized_process).

(** ** Barrier as a rendezvous of the processes of a job *)

Module Rendezvous.

(** Where a process stands with respect to its call of [barrier()]. *)
Inductive Phase : Type :=
| Before     (* has not called yet *)
| Blocked    (* has called, the call has not returned *)
| After.     (* the call has returned *)

(** Modelled from the spec: the job-wide view of [barrier()] (section
    4.1, "Barriers"; section 8 names the rendezvous counter): the
    transport counts the arrivals; a call blocks its process and returns
    once the counter has reached the number of processes. *)
Record Job : Type := mkJob {
  phase : list Phase;    (* entry [p] is the phase of global rank [p] *)
  arrived : nat          (* rendezvous counter *)
}.

Inductive Event : Type :=
| Call (p : nat)       (* process [p] calls [barrier()] *)
| Return (p : nat).    (* [barrier()] returns in process [p] *)

Fixpoint update (p : nat) (x : Phase) (l : list Phase) : list Phase :=
  match l, p with
  | [], _ => []
  | _ :: rest, O => x :: rest
  | y :: rest, S p' => y :: update p' x rest
  end.

Definition fire (e : Event) (j : Job) : option Job :=
  match e with
  | Call p =>
      match nth_error (phase j) p with
      | Some Before => Some (mkJob (update p Blocked (phase j)) (S (arrived j)))
      | _ => None
      end
  | Return p =>
      match nth_error (phase j) p with
      | Some Blocked =>
          if Nat.eqb (arrived j) (length (phase j))
          then Some (mkJob (update p After (phase j)) (arrived j))
          else None
      | _ => None
      end
  end.

(** A schedule is a sequence of events; it runs if each can fire. *)
Fixpoint run (sched : list Event) (j : Job) : option Job :=
  match sched with
  | [] => Some j
  | e :: rest =>
      match fire e j with
      | Some j' => run rest j'
      | None => None
      end
  end.

Definition initial (n : nat) : Job := mkJob (repeat Before n) 0.

Definition has_called (x : Phase) : bool :=
  match x with
  | Before => false
  | _ => true
  end.

Definition callers (l : list Phase) : nat := length (filter has_called l).

(** What holds of a job after a schedule has run from the start. *)
Record Inv (n : nat) (sched : list Event) (j : Job) : Prop := {
  inv_length : length (phase j) = n;
  inv_counter : arrived j = callers (phase j);
  inv_called :
    forall q x, nth_error (phase j) q = Some x -> has_called x = true ->
                In (Call q) sched
}.

End Rendezvous.

(** ** More on the header's code *)


(** What [MPI_CHECK] wrapped around [call] adds to the error stream when
    [call] has ended in [r]: the failure message on a non-zero status,
    nothing otherwise. *)
Definition check_output {T A} `{Transport T} (mpi_call : string)
  (r : Outcome (Machine T) (Z * A)) : string :=
  match r with
  | Returned (retval, _) _ =>
      if retval =? 0 then EmptyString else failure_message mpi_call retval
  | _ => EmptyString
  end.

Module Faulty.

(** A runtime whose finalized-query fails: it returns the status it holds
    and reports nothing. *)
Record State : Type := mkState { code : Z }.

Definition finalized_query (t : State) : Z * Z * State := (code t, 0, t).

#[global] Instance transport : Transport State := {
  MPI_Finalized := finalized_query;
  MPI_Error_string := Sim.error_string
}.

(** A process on such a runtime, holding a default-constructed handle. *)
Definition process (status : Z) : Machine State :=
  mkMachine MPIConnection_default (mkState status) "" "node0".

End Faulty.

(** * Properties *)

(** ** Strings and control *)

Lemma append_assoc (a b c : string) : ((a ++ b) ++ c)%string = (a ++ b ++ c)%string.
Proof.
  induction a as [|x a IH]; simpl; [reflexivity | now rewrite IH].
Qed.

Lemma count_newlines_app (a b : string) :
  count_newlines (a ++ b) = (count_newlines a + count_newlines b)%nat.
Proof.
  induction a as [|x a IH]; simpl; [reflexivity | rewrite IH; lia].
Qed.

Lemma bind_returned {St A B} (c : Proc St A) (k : A -> Proc St B) s a s' :
  c s = Returned a s' -> bind c k s = k a s'.
Proof. unfold bind; intros ->; reflexivity. Qed.

Lemma bind_exited {St A B} (c : Proc St A) (k : A -> Proc St B) s status s' :
  c s = Exited status s' -> bind c k s = Exited status s'.
Proof. unfold bind; intros ->; reflexivity. Qed.

Lemma throws_bind {St A B} (c : Proc St A) (k : A -> Proc St B) s :
  throws (c s) = false ->
  (forall a s', throws (k a s') = false) ->
  throws (bind c k s) = false.
Proof.
  unfold bind; intros Hc Hk.
  destruct (c s) as [a s'| |]; simpl in *; auto; discriminate.
Qed.

(** ** The fail-fast wrapper *)

Section HeaderFacts.
Context {T : Type} `{Transport T}.

Lemma MPI_CHECK_zero {A} mpi_call (call : Proc (Machine T) (Z * A)) m out m' :
  call m = Returned (0, out) m' ->
  MPI_CHECK mpi_call call m = Returned out m'.
Proof.
  intros Hcall. unfold MPI_CHECK.
  rewrite (bind_returned _ _ _ _ _ Hcall). reflexivity.
Qed.

Lemma MPI_CHECK_nonzero {A} mpi_call (call : Proc (Machine T) (Z * A))
      m retval out m' :
  call m = Returned (retval, out) m' ->
  retval <> 0 ->
  MPI_CHECK mpi_call call m =
    Exited 1 (with_cerr (cerr m' ++ failure_message mpi_call retval) m').
Proof.
  intros Hcall Hnz. unfold MPI_CHECK.
  rewrite (bind_returned _ _ _ _ _ Hcall).
  destruct (Z.eqb_spec retval 0) as [E|_]; [contradiction|].
  cbv beta iota delta
    [negb bind cerr_write exit with_cerr failure_message cerr self transport
     os_hostname].
  now rewrite !append_assoc.
Qed.

Lemma MPI_CHECK_throws {A} mpi_call (call : Proc (Machine T) (Z * A)) m :
  throws (call m) = false ->
  throws (MPI_CHECK mpi_call call m) = false.
Proof.
  intros Hc. unfold MPI_CHECK.
  apply throws_bind; [exact Hc|].
  intros [retval out] s'. destruct (negb (retval =? 0)); reflexivity.
Qed.

(** C1. A transport call routed through [MPI_CHECK] that returns a
    non-zero status makes the process write "MPI call failed: ", the
    text of the call, ": ", the transport's error string for that status
    and a newline to the error stream and exit with status 1, so that
    the wrapper does not return; one that returns zero leaves the
    machine as the call left it and execution continues with the call's
    results. *)
Theorem MPI_CHECK_fail_fast {A} (mpi_call : string)
        (call : Proc (Machine T) (Z * A)) (m m' : Machine T)
        (retval : Z) (out : A) :
  call m = Returned (retval, out) m' ->
  (retval <> 0 ->
     MPI_CHECK mpi_call call m =
       Exited 1
         (with_cerr
            (cerr m' ++ "MPI call failed: " ++ mpi_call ++ ": "
               ++ MPI_Error_string retval ++ newline) m')
     /\ forall a s, MPI_CHECK mpi_call call m <> Returned a s)
  /\ (retval = 0 -> MPI_CHECK mpi_call call m = Returned out m').
Proof.
  intros Hcall. split.
  - intros Hnz.
    pose proof (MPI_CHECK_nonzero mpi_call call m retval out m' Hcall Hnz) as E.
    unfold failure_message in E. rewrite !append_assoc in E.
    split; [exact E|].
    intros a s. rewrite E. discriminate.
  - intros ->. now apply MPI_CHECK_zero.
Qed.

(** ** Construction *)

(** C3. After default construction all six integers, read directly or
    through their accessors, are the sentinel -1. *)
Theorem default_constructor_sentinels (m : Machine T) :
  int_fields (self (final_state (MPIConnection_ctor m))) = [-1; -1; -1; -1; -1; -1]
  /\ map (fun a => get a (self (final_state (MPIConnection_ctor m))))
         [acc_rank; acc_size; acc_locales; acc_locale; acc_locale_rank;
          acc_locale_size]
     = [-1; -1; -1; -1; -1; -1].
Proof. split; reflexivity. Qed.

Section Declared.
Variable init : list string -> Proc (Machine T) unit.
Variable finalize : Proc (Machine T) unit.

(** C5. Whatever [init] does, the constructor taking the argument
    list leaves the machine exactly as default construction followed
    by [init] on the same arguments does. *)
Theorem ctor_args_is_default_then_init (args : list string) (m : Machine T) :
  MPIConnection_ctor_args init args m = default_then_init init args m.
Proof.
  unfold MPIConnection_ctor_args, default_then_init, MPIConnection_ctor.
  unfold MPIConnection_default, bind.
  reflexivity.
Qed.

(** ** Destruction *)

Lemma destructor_not_finalized m t' :
  MPI_Finalized (transport m) = (0, 0, t') ->
  destructor finalize m = finalize (after_warning t' m).
Proof.
  intros Hq. unfold destructor.
  assert (Hcall : mpi MPI_Finalized m = Returned (0, 0) (with_transport t' m))
    by (unfold mpi; rewrite Hq; reflexivity).
  rewrite (bind_returned _ _ _ _ _ (MPI_CHECK_zero _ _ _ _ _ Hcall)).
  cbv beta iota delta
    [Z.eqb bind cerr_write after_warning with_cerr with_transport cerr self
     transport os_hostname].
  now rewrite append_assoc.
Qed.

Lemma destructor_finalized m flag t' :
  MPI_Finalized (transport m) = (0, flag, t') ->
  flag <> 0 ->
  destructor finalize m = Returned tt (with_transport t' m).
Proof.
  intros Hq Hflag. unfold destructor.
  assert (Hcall : mpi MPI_Finalized m = Returned (0, flag) (with_transport t' m))
    by (unfold mpi; rewrite Hq; reflexivity).
  rewrite (bind_returned _ _ _ _ _ (MPI_CHECK_zero _ _ _ _ _ Hcall)).
  destruct (Z.eqb_spec flag 0); [contradiction | reflexivity].
Qed.

Lemma destructor_throws m :
  (forall s, throws (finalize s) = false) ->
  throws (destructor finalize m) = false.
Proof.
  intros Hfin. unfold destructor. apply throws_bind.
  - apply MPI_CHECK_throws. unfold mpi.
    destruct (MPI_Finalized (transport m)) as [[? ?] ?]. reflexivity.
  - intros flag s'. destruct (flag =? 0); [|reflexivity].
    cbn. apply Hfin.
Qed.

(** C2. When the finalized-query succeeds and reports "not finalized",
    the destructor puts exactly one line, the warning, on the error
    stream and then runs [finalize()]; when it reports "finalized",
    the destructor writes nothing and returns without running
    [finalize()]; and as long as [finalize()] itself does not throw,
    the destructor does not throw. *)
Theorem destructor_warns_then_finalizes (m : Machine T) (flag : Z) (t' : T) :
  MPI_Finalized (transport m) = (0, flag, t') ->
  (forall s, throws (finalize s) = false) ->
  (flag = 0 ->
     destructor finalize m = finalize (after_warning t' m)
     /\ cerr (after_warning t' m) = (cerr m ++ destructor_warning ++ endl)%string
     /\ count_newlines (destructor_warning ++ endl) = 1%nat)
  /\ (flag <> 0 ->
        destructor finalize m = Returned tt (with_transport t' m)
        /\ cerr (with_transport t' m) = cerr m)
  /\ throws (destructor finalize m) = false.
Proof.
  intros Hq Hfin. repeat split.
  - subst flag. now apply destructor_not_finalized.
  - now apply (destructor_finalized m flag t').
  - now apply destructor_throws.
Qed.

(** C10. The destructor never looks at the handle: for a
    default-constructed handle on which [init] was never called, as
    for a handle in any other state, a successful finalized-query
    alone decides the path; if it reports "not finalized" the warning
    is printed and [finalize()] is run, otherwise the destructor
    returns silently. *)
Theorem destructor_of_uninitialized_handle
        (m : Machine T) (o : MPIConnection) (flag : Z) (t' : T) :
  MPI_Finalized (transport m) = (0, flag, t') ->
  destructor finalize (with_self MPIConnection_default m)
    = (if flag =? 0
       then finalize (after_warning t' (with_self MPIConnection_default m))
       else Returned tt (with_transport t' (with_self MPIConnection_default m)))
  /\ destructor finalize (with_self o m)
    = (if flag =? 0
       then finalize (after_warning t' (with_self o m))
       else Returned tt (with_transport t' (with_self o m))).
Proof.
  intros Hq.
  assert (Hany : forall h,
             destructor finalize (with_self h m)
             = if flag =? 0
               then finalize (after_warning t' (with_self h m))
               else Returned tt (with_transport t' (with_self h m))).
  { intros h. destruct (Z.eqb_spec flag 0) as [->|Hnz].
    - now apply destructor_not_finalized.
    - now apply (destructor_finalized _ flag). }
  split; apply Hany.
Qed.

End Declared.
End HeaderFacts.

(** ** What the operations leave alone *)

Section Frame.
Context {T X : Type} `{Transport T} (obs : Machine T -> X).
Hypothesis obs_transport : forall t m, obs (with_transport t m) = obs m.
Hypothesis obs_cerr : forall e m, obs (with_cerr e m) = obs m.

Lemma keeps_ret {A} (a : A) : keeps obs (ret a).
Proof. intros m; reflexivity. Qed.

Lemma keeps_exit {A} status : keeps obs (exit (A := A) status).
Proof. intros m; reflexivity. Qed.

Lemma keeps_bind {A B} (c : Proc (Machine T) A) (k : A -> Proc (Machine T) B) :
  keeps obs c -> (forall a, keeps obs (k a)) -> keeps obs (bind c k).
Proof.
  intros Hc Hk m. specialize (Hc m). unfold bind.
  destruct (c m) as [a s| |]; simpl in *; try exact Hc.
  now rewrite Hk.
Qed.

Lemma keeps_cerr_write s : keeps obs (cerr_write s).
Proof. intros m; apply obs_cerr. Qed.

Lemma keeps_mpi {A} (op : T -> Z * A * T) : keeps obs (mpi op).
Proof.
  intros m. unfold mpi. destruct (op (transport m)) as [[retval out] t'].
  apply obs_transport.
Qed.

Lemma keeps_MPI_CHECK {A} mpi_call (call : Proc (Machine T) (Z * A)) :
  keeps obs call -> keeps obs (MPI_CHECK mpi_call call).
Proof.
  intros Hc. unfold MPI_CHECK. apply keeps_bind; [exact Hc|].
  intros [retval out]. destruct (negb (retval =? 0)).
  - repeat (apply keeps_bind; [apply keeps_cerr_write | intros _]).
    apply keeps_exit.
  - apply keeps_ret.
Qed.

Context `{Collectives T}.

Lemma keeps_hostname : keeps obs hostname.
Proof. intros m; reflexivity. Qed.

Lemma keeps_read a : keeps obs (read a).
Proof. intros m; reflexivity. Qed.

Lemma keeps_finalize : keeps obs finalize.
Proof. apply keeps_MPI_CHECK, keeps_mpi. Qed.

Lemma keeps_barrier : keeps obs barrier.
Proof. intros m. unfold barrier. apply keeps_MPI_CHECK, keeps_mpi. Qed.

Lemma keeps_locale_barrier : keeps obs locale_barrier.
Proof. intros m. unfold locale_barrier. apply keeps_MPI_CHECK, keeps_mpi. Qed.

(** Everything but [init] keeps whatever the runtime and the error
    stream do not show. *)
Lemma keeps_perform_after_init c : is_init c = false -> keeps obs (perform c).
Proof.
  destruct c; simpl; intros Hc; try discriminate.
  - apply keeps_finalize.
  - apply keeps_barrier.
  - apply keeps_locale_barrier.
  - apply keeps_bind; [apply keeps_hostname | intros; apply keeps_ret].
  - apply keeps_bind; [apply keeps_read | intros; apply keeps_ret].
Qed.

Lemma keeps_perform_all_after_init cs :
  existsb is_init cs = false -> keeps obs (perform_all cs).
Proof.
  induction cs as [|c cs IH]; simpl; intros Hcs.
  - apply keeps_ret.
  - apply orb_false_iff in Hcs as [Hc Hcs].
    apply keeps_bind; [now apply keeps_perform_after_init | intros _; auto].
Qed.

(** [init] keeps what, besides, no assignment to an int member or to a
    communicator shows. *)
Hypothesis obs_store : forall r v m, obs (with_self (store r v (self m)) m) = obs m.
Hypothesis obs_main : forall c m,
    obs (with_self (set_main_communicator_ c (self m)) m) = obs m.
Hypothesis obs_locale : forall c m,
    obs (with_self (set_locale_communicator_ c (self m)) m) = obs m.

Lemma keeps_assign r v : keeps obs (assign r v).
Proof. intros m; apply obs_store. Qed.

Lemma keeps_init args : keeps obs (init args).
Proof.
  unfold init.
  repeat first
    [ apply keeps_assign
    | apply keeps_hostname
    | apply keeps_MPI_CHECK, keeps_mpi
    | (intros m; apply obs_main)
    | (intros m; apply obs_locale)
    | (apply keeps_bind; [| intros ?]) ].
Qed.

Lemma keeps_perform c : keeps obs (perform c).
Proof.
  destruct c; [apply keeps_init | now apply keeps_perform_after_init ..].
Qed.

Lemma keeps_perform_all cs : keeps obs (perform_all cs).
Proof.
  induction cs as [|c cs IH]; simpl.
  - apply keeps_ret.
  - apply keeps_bind; [apply keeps_perform | intros _; exact IH].
Qed.

End Frame.

(** ** Accessors, aliases and the frozen fields *)

Lemma get_by_fields_and_bindings (a : Accessor) (o o' : MPIConnection) :
  int_fields o = int_fields o' -> bindings o = bindings o' -> get a o = get a o'.
Proof.
  unfold int_fields, bindings, get. intros Hf Hb.
  injection Hf as E1 E2 E3 E4 E5 E6.
  injection Hb as B1 B2 B3 B4 B5 B6 B7 B8.
  destruct a; simpl; unfold load;
    rewrite <- ?B1, <- ?B2, <- ?B3, <- ?B4, <- ?B5, <- ?B6, <- ?B7, <- ?B8;
    match goal with |- context [match ?r with _ => _ end] => destruct r end;
    assumption.
Qed.

(** Two accessors bound to the same member read the same value, whatever
    the members hold. *)
Lemma aliases_by_binding (o : MPIConnection) :
  bindings o = bindings MPIConnection_default ->
  get acc_ranks o = get acc_size o
  /\ get acc_locale_ranks o = get acc_locale_size o.
Proof.
  unfold bindings, get; simpl. intros Hb.
  injection Hb as _ B2 B3 _ _ _ B7 B8.
  now rewrite B2, B3, B7, B8.
Qed.

Section MemberFacts.
Context {T : Type} `{Transport T} `{Collectives T}.

Lemma perform_all_bindings cs (m : Machine T) :
  bindings (self (final_state (perform_all cs m))) = bindings (self m).
Proof.
  apply (keeps_perform_all (fun m => bindings (self m))); reflexivity.
Qed.

(** C4. Starting from either constructor and after any sequence of
    [init], [finalize], [barrier], [locale_barrier], [hostname] and
    accessor reads, however the last of them ended, [ranks] reads the
    same value as [size] and [locale_ranks] the same as
    [locale_size]. *)
Theorem aliases_in_every_state (args : list string) (cs : list Call) (m : Machine T) :
  (get acc_ranks (self (final_state ((MPIConnection_ctor ;; perform_all cs) m)))
     = get acc_size (self (final_state ((MPIConnection_ctor ;; perform_all cs) m)))
   /\ get acc_locale_ranks (self (final_state ((MPIConnection_ctor ;; perform_all cs) m)))
     = get acc_locale_size (self (final_state ((MPIConnection_ctor ;; perform_all cs) m))))
  /\ (get acc_ranks
        (self (final_state ((MPIConnection_ctor_args init args ;; perform_all cs) m)))
      = get acc_size
          (self (final_state ((MPIConnection_ctor_args init args ;; perform_all cs) m)))
      /\ get acc_locale_ranks
           (self (final_state ((MPIConnection_ctor_args init args ;; perform_all cs) m)))
         = get acc_locale_size
             (self (final_state ((MPIConnection_ctor_args init args ;; perform_all cs) m)))).
Proof.
  split; apply aliases_by_binding.
  - unfold bind, MPIConnection_ctor. rewrite perform_all_bindings. reflexivity.
  - change (MPIConnection_ctor_args init args ;; perform_all cs)
      with (MPIConnection_ctor ;; perform_all (CallInit args :: cs)).
    unfold bind at 1, MPIConnection_ctor. rewrite perform_all_bindings. reflexivity.
Qed.

(** C6. From any state of the machine, in particular one [init] has
    returned in, a sequence of calls of [barrier], [locale_barrier],
    [hostname], [finalize] and accessor reads leaves the six integers as
    they were, however the sequence ends, and every accessor still reads
    what it read before. *)
Theorem fields_frozen_after_init (cs : list Call) (m : Machine T) :
  existsb is_init cs = false ->
  int_fields (self (final_state (perform_all cs m))) = int_fields (self m)
  /\ forall a, get a (self (final_state (perform_all cs m))) = get a (self m).
Proof.
  intros Hcs.
  assert (Hf : int_fields (self (final_state (perform_all cs m))) = int_fields (self m)).
  { apply (keeps_perform_all_after_init (fun m => int_fields (self m)));
      [reflexivity | reflexivity | exact Hcs]. }
  split; [exact Hf|].
  intros a. apply get_by_fields_and_bindings; [exact Hf|].
  apply perform_all_bindings.
Qed.

(** C9. Two calls of [hostname()] in a row both return, with the same
    string, and leave the machine as it was; and with any other calls on
    the handle in between, if control reaches the second call it
    returns what the first did. *)
Theorem hostname_twice_same (cs : list Call) (m : Machine T) :
  hostname_twice m = Returned (os_hostname m, os_hostname m) m
  /\ match (first <- hostname ;; perform_all cs ;; second <- hostname ;;
            ret (first, second)) m with
     | Returned (first, second) _ => first = second
     | _ => True
     end.
Proof.
  split; [reflexivity|].
  unfold bind at 1, hostname at 1.
  pose proof (keeps_perform_all (fun m => os_hostname m)
                (fun _ _ => eq_refl) (fun _ _ => eq_refl) (fun _ _ _ => eq_refl)
                (fun _ _ => eq_refl) (fun _ _ => eq_refl) cs m) as Hk.
  unfold bind. destruct (perform_all cs m) as [[] s| |]; simpl in *; auto.
Qed.

Lemma finalize_never_throws (s : Machine T) : throws (finalize s) = false.
Proof.
  apply MPI_CHECK_throws. unfold mpi.
  destruct (transport_finalize (transport s)) as [[? ?] ?]. reflexivity.
Qed.

End MemberFacts.

(** ** One node, four processes *)

Lemma job_init_single_node (h : string) (args : list string) (garbage : MPIConnection)
      (r : nat) :
  In r [0; 1; 2; 3]%nat ->
  job_init [h; h; h; h] args garbage r
  = Returned tt
      (mkMachine
         (mkMPIConnection (Z.of_nat r) 4 1 0 (Z.of_nat r) 4
            (Some Sim.world) (Some Sim.node_local)
            at_rank_ at_size_ at_size_ at_locales_ at_locale_ at_locale_rank_
            at_locale_size_ at_locale_size_)
         (Sim.mkState [h; h; h; h] r (Some h) true false) "" h).
Proof.
  intros Hr. simpl in Hr.
  destruct Hr as [<-|[<-|[<-|[<-|[]]]]];
    unfold job_init, init, MPI_CHECK, bind, mpi, hostname, assign, Sim.boot;
    cbn; unfold members; cbn; rewrite ?String.eqb_refl; cbn; reflexivity.
Qed.

(** C7. In a job of four processes on one node, each process's [init]
    returns with node count 1, node id 0, node-local size 4 and global
    size 4, and the node-local ranks of the four processes are a
    permutation of 0, 1, 2, 3. *)
Theorem single_node_four_processes (h : string) (args : list string)
        (garbage : MPIConnection) :
  Forall
    (fun r =>
       exists m,
         job_init [h; h; h; h] args garbage r = Returned tt m
         /\ get acc_locales (self m) = 1
         /\ get acc_locale (self m) = 0
         /\ get acc_locale_size (self m) = 4
         /\ get acc_size (self m) = 4)
    [0; 1; 2; 3]%nat
  /\ Permutation
       (map (fun r =>
               get acc_locale_rank
                 (self (final_state (job_init [h; h; h; h] args garbage r))))
            [0; 1; 2; 3]%nat)
       [0; 1; 2; 3].
Proof.
  split.
  - apply Forall_forall. intros r Hr.
    rewrite (job_init_single_node h args garbage r Hr).
    eexists; split; [reflexivity|]. now repeat split.
  - cbn [map].
    rewrite !job_init_single_node by (simpl; auto).
    apply Permutation_refl.
Qed.

(** ** The rendezvous *)

Module RendezvousFacts.
Import Rendezvous.
Local Open Scope list_scope.

Lemma update_length p x l : length (update p x l) = length l.
Proof.
  revert p; induction l as [|y l IH]; intros [|p]; simpl; auto.
Qed.

Lemma nth_error_update_other p q x l :
  q <> p -> nth_error (update p x l) q = nth_error l q.
Proof.
  revert p q; induction l as [|y l IH]; intros [|p] [|q] Hne; simpl; auto;
    try contradiction.
Qed.

Lemma callers_update_call p l :
  nth_error l p = Some Before -> callers (update p Blocked l) = S (callers l).
Proof.
  unfold callers.
  revert p; induction l as [|y l IH]; intros [|p]; simpl; try discriminate.
  - intros [= ->]. reflexivity.
  - intros Hp. destruct (has_called y); simpl; now rewrite IH.
Qed.

Lemma callers_update_return p l :
  nth_error l p = Some Blocked -> callers (update p After l) = callers l.
Proof.
  unfold callers.
  revert p; induction l as [|y l IH]; intros [|p]; simpl; try discriminate.
  - intros [= ->]. reflexivity.
  - intros Hp. destruct (has_called y); simpl; now rewrite IH.
Qed.

Lemma callers_le l : (callers l <= length l)%nat.
Proof.
  unfold callers. induction l as [|y l IH]; simpl; [lia|].
  destruct (has_called y); simpl; lia.
Qed.

(** When the counter of callers equals the number of processes, every
    process has called. *)
Lemma callers_all l :
  callers l = length l ->
  forall q x, nth_error l q = Some x -> has_called x = true.
Proof.
  induction l as [|y l IH]; intros Hall [|q] x; simpl; try discriminate.
  - intros [= ->]. unfold callers in Hall; simpl in Hall.
    destruct (has_called x); [reflexivity|].
    pose proof (callers_le l) as Hle. unfold callers in Hle. lia.
  - intros Hq. apply (IH) with (q := q); [|exact Hq].
    unfold callers in *; simpl in Hall.
    destruct (has_called y); simpl in Hall; [lia|].
    pose proof (callers_le l) as Hle. unfold callers in Hle. lia.
Qed.

Lemma run_app a b j :
  run (a ++ b) j = match run a j with Some j' => run b j' | None => None end.
Proof.
  revert j; induction a as [|e a IH]; intros j; simpl; [reflexivity|].
  destruct (fire e j); auto.
Qed.

Lemma inv_initial n : Inv n [] (initial n).
Proof.
  split; simpl.
  - apply repeat_length.
  - unfold callers. induction n; simpl; auto.
  - intros q x Hq Hx. apply nth_error_In, repeat_spec in Hq. subst x.
    discriminate.
Qed.

Lemma inv_fire n sched e j j' :
  Inv n sched j -> fire e j = Some j' -> Inv n (sched ++ [e]) j'.
Proof.
  intros [Hlen Hcnt Hcalled] Hfire. destruct e as [p|p]; simpl in Hfire.
  - destruct (nth_error (phase j) p) as [[| |]|] eqn:Hp; try discriminate.
    injection Hfire as <-. split; simpl.
    + now rewrite update_length.
    + now rewrite callers_update_call, Hcnt.
    + intros q x Hq Hx. apply in_or_app.
      destruct (Nat.eq_dec q p) as [->|Hne]; [right; now left|].
      left. rewrite nth_error_update_other in Hq by exact Hne. eauto.
  - destruct (nth_error (phase j) p) as [[| |]|] eqn:Hp; try discriminate.
    destruct (Nat.eqb (arrived j) (length (phase j))); [|discriminate].
    injection Hfire as <-. split; simpl.
    + now rewrite update_length.
    + now rewrite callers_update_return.
    + intros q x Hq Hx. apply in_or_app. left.
      destruct (Nat.eq_dec q p) as [->|Hne].
      * apply (Hcalled p Blocked Hp eq_refl).
      * rewrite nth_error_update_other in Hq by exact Hne. eauto.
Qed.

Lemma inv_run n sched j : run sched (initial n) = Some j -> Inv n sched j.
Proof.
  revert j; induction sched as [|e sched IH] using rev_ind; intros j Hrun.
  - injection Hrun as <-. apply inv_initial.
  - rewrite run_app in Hrun.
    destruct (run sched (initial n)) as [j'|] eqn:Hpre; [|discriminate].
    simpl in Hrun. destruct (fire e j') as [j''|] eqn:Hfire; [|discriminate].
    injection Hrun as <-. eapply inv_fire; eauto.
Qed.

(** C8. In every schedule of a job of [n] processes that runs, a return
    of [barrier()] in some process has before it a call of [barrier()] by
    each of the [n] processes: no call returns while a peer has yet to
    call. *)
Theorem barrier_returns_after_all_called (n : nat) (pre post : list Event)
        (p : nat) (j : Job) (q : nat) :
  run (pre ++ Return p :: post) (initial n) = Some j ->
  (q < n)%nat ->
  In (Call q) pre.
Proof.
  intros Hrun Hq. rewrite run_app in Hrun.
  destruct (run pre (initial n)) as [j'|] eqn:Hpre; [|discriminate].
  destruct (inv_run n pre j' Hpre) as [Hlen Hcnt Hcalled].
  simpl in Hrun.
  destruct (nth_error (phase j') p) as [[| |]|]; try discriminate.
  destruct (Nat.eqb_spec (arrived j') (length (phase j'))) as [Hall|]; [|discriminate].
  rewrite Hcnt in Hall.
  destruct (nth_error (phase j') q) as [x|] eqn:Hx.
  - apply (Hcalled q x Hx). apply (callers_all _ Hall q x Hx).
  - apply nth_error_None in Hx. lia.
Qed.

Lemma nth_error_middle (l1 l2 : list Phase) y k :
  length l1 = k -> nth_error (l1 ++ y :: l2) k = Some y.
Proof.
  intros <-. induction l1; simpl; auto.
Qed.

Lemma update_middle (l1 l2 : list Phase) x y k :
  length l1 = k -> update k x (l1 ++ y :: l2) = l1 ++ x :: l2.
Proof.
  intros <-. induction l1; simpl; [reflexivity | now rewrite IHl1].
Qed.

Lemma repeat_snoc (x : Phase) k l : repeat x k ++ x :: l = repeat x (S k) ++ l.
Proof.
  induction k; simpl; [reflexivity | now rewrite IHk].
Qed.

Lemma run_calls m : forall k a,
  run (map Call (seq k m)) (mkJob (repeat Blocked k ++ repeat Before m) a)
  = Some (mkJob (repeat Blocked (k + m)) (a + m)).
Proof.
  induction m as [|m IH]; intros k a; simpl.
  - now rewrite app_nil_r, !Nat.add_0_r.
  - rewrite (nth_error_middle _ _ _ k) by apply repeat_length.
    rewrite (update_middle _ _ _ _ k) by apply repeat_length.
    rewrite repeat_snoc, IH.
    replace (S k + m)%nat with (k + S m)%nat by lia.
    replace (S a + m)%nat with (a + S m)%nat by lia.
    reflexivity.
Qed.

Lemma run_returns m : forall k,
  run (map Return (seq k m)) (mkJob (repeat After k ++ repeat Blocked m) (k + m))
  = Some (mkJob (repeat After (k + m)) (k + m)).
Proof.
  induction m as [|m IH]; intros k; simpl.
  - now rewrite app_nil_r, !Nat.add_0_r.
  - rewrite (nth_error_middle _ _ _ k) by apply repeat_length.
    replace (length (repeat After k ++ Blocked :: repeat Blocked m)) with (k + S m)%nat
      by (rewrite length_app, repeat_length; simpl; now rewrite repeat_length).
    rewrite Nat.eqb_refl.
    rewrite (update_middle _ _ _ _ k) by apply repeat_length.
    rewrite repeat_snoc. replace (k + S m)%nat with (S k + m)%nat by lia.
    apply IH.
Qed.

(** The rendezvous does complete: when all [n] processes have called,
    every call returns. *)
Lemma all_called_all_return n :
  run (map Call (seq 0 n) ++ map Return (seq 0 n)) (initial n)
  = Some (mkJob (repeat After n) n).
Proof.
  rewrite run_app.
  change (initial n) with (mkJob (repeat Blocked 0 ++ repeat Before n) 0).
  rewrite (run_calls n 0 0). apply (run_returns n 0).
Qed.

End RendezvousFacts.

(** ** Concrete runs on the simulated transport *)

(** A barrier before the bootstrap fails and the process exits with
    status 1 and the message on the error stream; a successful
    finalized-query lets execution continue. *)
Lemma MPI_CHECK_fail_fast_witness :
  (Sim.MPI_ERR_OTHER <> 0
   /\ MPI_CHECK "barrier" (mpi (transport_barrier Sim.world)) fresh_process
      = Exited 1
          (with_cerr ("MPI call failed: barrier: Other MPI error" ++ newline)
                     fresh_process))
  /\ MPI_CHECK "MPI_Finalized( &finalized )" (mpi MPI_Finalized) fresh_process
     = Returned 0 fresh_process.
Proof.
  assert (Hnz : Sim.MPI_ERR_OTHER <> 0) by discriminate.
  split; [split; [exact Hnz|]|].
  - exact (proj1
             (proj1
                (MPI_CHECK_fail_fast "barrier" (mpi (transport_barrier Sim.world))
                   fresh_process fresh_process Sim.MPI_ERR_OTHER tt eq_refl)
                Hnz)).
  - exact (proj2
             (MPI_CHECK_fail_fast "MPI_Finalized( &finalized )" (mpi MPI_Finalized)
                fresh_process fresh_process 0 0 eq_refl)
             eq_refl).
Defined.

(** Destroying an initialized handle warns once and finalizes; destroying
    it after [finalize] is silent. *)
Lemma destructor_warns_then_finalizes_witness :
  (destructor finalize initialized_process
   = Returned tt
       (with_cerr (destructor_warning ++ endl) finalized_process)
   /\ count_newlines (destructor_warning ++ endl) = 1%nat)
  /\ destructor finalize finalized_process = Returned tt finalized_process
  /\ throws (destructor finalize initialized_process) = false.
Proof.
  pose proof (destructor_warns_then_finalizes finalize initialized_process 0
                (transport initialized_process) eq_refl finalize_never_throws)
    as [Hwarn [_ Hthrow]].
  pose proof (destructor_warns_then_finalizes finalize finalized_process 1
                (transport finalized_process) eq_refl finalize_never_throws)
    as [_ [Hsilent _]].
  destruct (Hwarn eq_refl) as [Hrun [_ Hone]].
  assert (Hone' : 1 <> 0) by discriminate.
  destruct (Hsilent Hone') as [Hret _].
  split; [split|split].
  - rewrite Hrun. reflexivity.
  - exact Hone.
  - exact Hret.
  - exact Hthrow.
Defined.

(** After [init], a barrier, a read, a host name query, a node-local
    barrier and [finalize] leave the six integers of rank 0 as [init] set
    them. *)
Lemma fields_frozen_after_init_witness :
  existsb is_init
    [CallBarrier; CallRead acc_ranks; CallHostname; CallLocaleBarrier; CallFinalize]
  = false
  /\ int_fields
       (self
          (final_state
             (perform_all
                [CallBarrier; CallRead acc_ranks; CallHostname; CallLocaleBarrier;
                 CallFinalize]
                initialized_process)))
     = [0; 2; 1; 0; 0; 2].
Proof.
  split; [reflexivity|].
  exact (proj1
           (fields_frozen_after_init
              [CallBarrier; CallRead acc_ranks; CallHostname; CallLocaleBarrier;
               CallFinalize]
              initialized_process eq_refl)).
Defined.

(** In a job of two, rank 1 calls first and returns only once rank 0 has
    called as well. *)
Lemma barrier_returns_after_all_called_witness :
  Rendezvous.run
    ([Rendezvous.Call 1; Rendezvous.Call 0]
       ++ Rendezvous.Return 1 :: [Rendezvous.Return 0])%list
    (Rendezvous.initial 2)
  = Some (Rendezvous.mkJob [Rendezvous.After; Rendezvous.After] 2)
  /\ (0 < 2)%nat
  /\ In (Rendezvous.Call 0) [Rendezvous.Call 1; Rendezvous.Call 0].
Proof.
  split; [reflexivity|]. split; [apply Nat.lt_0_succ|].
  exact (RendezvousFacts.barrier_returns_after_all_called 2
           [Rendezvous.Call 1; Rendezvous.Call 0] [Rendezvous.Return 0] 1
           (Rendezvous.mkJob [Rendezvous.After; Rendezvous.After] 2) 0
           eq_refl (Nat.lt_0_succ 1)).
Defined.

(** A handle that never saw [init] and one that did are destroyed alike
    while the transport runs: the warning, then [finalize()]. *)
Lemma destructor_of_uninitialized_handle_witness :
  destructor finalize fresh_process
  = finalize (after_warning (transport fresh_process) fresh_process)
  /\ destructor finalize (with_self (self initialized_process) fresh_process)
     = finalize
         (after_warning (transport fresh_process)
            (with_self (self initialized_process) fresh_process)).
Proof.
  exact (destructor_of_uninitialized_handle finalize fresh_process
           (self initialized_process) 0 (transport fresh_process) eq_refl).
Defined.

(** ** Further properties of the header's code *)

Lemma append_empty_r (a : string) : (a ++ "")%string = a.
Proof.
  induction a as [|x a IH]; simpl; [reflexivity | now rewrite IH].
Qed.

Section HeaderMore.
Context {T : Type} `{Transport T}.

(** X1. [MPI_CHECK] composes with what follows it as the call's status
    decides: on status zero the rest of the program runs on the call's
    results and state; on any other status the process exits with status 1
    in the state of the failure, whatever the rest of the program is, so
    nothing after a failed check is ever run. *)
Theorem MPI_CHECK_then {A B} (mpi_call : string) (call : Proc (Machine T) (Z * A))
        (k : A -> Proc (Machine T) B) (m m' : Machine T) (retval : Z) (out : A) :
  call m = Returned (retval, out) m' ->
  bind (MPI_CHECK mpi_call call) k m
  = if retval =? 0 then k out m'
    else Exited 1 (with_cerr (cerr m' ++ failure_message mpi_call retval) m').
Proof.
  intros Hcall. destruct (Z.eqb_spec retval 0) as [->|Hnz].
  - apply bind_returned. now apply MPI_CHECK_zero.
  - apply bind_exited. now apply (MPI_CHECK_nonzero mpi_call call m retval out).
Qed.

(** X2. [MPI_CHECK] evaluates its argument once and adds nothing but
    error text: however the wrapped call ends, the wrapper ends with the
    object, the runtime and the host name exactly as the call left them,
    and with the error stream the call left followed by the failure
    message (non-zero status) or by nothing. *)
Theorem MPI_CHECK_adds_only_error_text {A} (mpi_call : string)
        (call : Proc (Machine T) (Z * A)) (m : Machine T) :
  self (final_state (MPI_CHECK mpi_call call m)) = self (final_state (call m))
  /\ transport (final_state (MPI_CHECK mpi_call call m))
     = transport (final_state (call m))
  /\ os_hostname (final_state (MPI_CHECK mpi_call call m))
     = os_hostname (final_state (call m))
  /\ cerr (final_state (MPI_CHECK mpi_call call m))
     = (cerr (final_state (call m)) ++ check_output mpi_call (call m))%string.
Proof.
  destruct (call m) as [[retval out] s|status s|s] eqn:Hcall.
  - destruct (Z.eqb_spec retval 0) as [->|Hnz].
    + rewrite (MPI_CHECK_zero mpi_call call m out s Hcall).
      cbn [final_state check_output Z.eqb]. now rewrite append_empty_r.
    + rewrite (MPI_CHECK_nonzero mpi_call call m retval out s Hcall Hnz).
      cbn [final_state check_output].
      destruct (Z.eqb_spec retval 0); [contradiction|].
      repeat split.
  - unfold MPI_CHECK. rewrite (bind_exited _ _ _ _ _ Hcall).
    cbn [final_state check_output]. now rewrite append_empty_r.
  - unfold MPI_CHECK, bind. rewrite Hcall.
    cbn [final_state check_output]. now rewrite append_empty_r.
Qed.

Section DeclaredMore.
Variable finalize : Proc (Machine T) unit.

(** X3. When the finalized-query itself returns a non-zero status, the
    destructor exits with status 1 after writing the failure message
    naming [MPI_Finalized( &finalized )]; it prints no warning and does
    not run [finalize()], whatever the flag holds and whatever
    [finalize()] is. *)
Theorem destructor_query_failure (m : Machine T) (status flag : Z) (t' : T) :
  MPI_Finalized (transport m) = (status, flag, t') ->
  status <> 0 ->
  destructor finalize m
  = Exited 1
      (with_cerr
         (cerr m ++ "MPI call failed: MPI_Finalized( &finalized ): "
            ++ MPI_Error_string status ++ newline)
         (with_transport t' m)).
Proof.
  intros Hq Hnz. unfold destructor.
  assert (Hcall : mpi MPI_Finalized m = Returned (status, flag) (with_transport t' m))
    by (unfold mpi; rewrite Hq; reflexivity).
  rewrite (MPI_CHECK_then _ _ _ _ _ _ _ Hcall).
  destruct (Z.eqb_spec status 0); [contradiction|].
  unfold failure_message. now rewrite !append_assoc.
Qed.

(** X4. Two destructions in a row: if the transport is running, the
    first destructor warns and runs [finalize()]; when that returns with
    the transport reported finalized, the second destructor adds nothing
    to the error stream and does not run [finalize()] again. *)
Theorem destructor_twice (m m2 : Machine T) (t1 t2 : T) (flag2 : Z) :
  MPI_Finalized (transport m) = (0, 0, t1) ->
  finalize (after_warning t1 m) = Returned tt m2 ->
  MPI_Finalized (transport m2) = (0, flag2, t2) ->
  flag2 <> 0 ->
  (destructor finalize ;; destructor finalize) m = Returned tt (with_transport t2 m2)
  /\ cerr (with_transport t2 m2) = cerr m2.
Proof.
  intros Hq1 Hfin Hq2 Hflag. split; [|reflexivity].
  assert (Hfirst : destructor finalize m = Returned tt m2)
    by (now rewrite (destructor_not_finalized finalize m t1 Hq1)).
  rewrite (bind_returned _ _ _ _ _ Hfirst).
  now apply (destructor_finalized finalize m2 flag2 t2).
Qed.

(** X5. The destructor does not write to the object: if [finalize()]
    leaves the object as it finds it, so does the destructor, however it
    ends. *)
Theorem destructor_keeps_object (m : Machine T) :
  (forall s, self (final_state (finalize s)) = self s) ->
  self (final_state (destructor finalize m)) = self m.
Proof.
  intros Hfin. unfold destructor.
  apply (keeps_bind (fun s => self s)).
  - apply keeps_MPI_CHECK; try reflexivity. apply keeps_mpi; reflexivity.
  - intros flag. destruct (flag =? 0); [|apply keeps_ret].
    repeat (apply keeps_bind; [apply keeps_cerr_write; reflexivity | intros _]).
    exact Hfin.
Qed.

End DeclaredMore.
End HeaderMore.


(** *** Concrete runs *)

(** A barrier before the bootstrap fails, and the write that follows the
    check is never made. *)
Lemma MPI_CHECK_then_witness :
  bind (MPI_CHECK "barrier" (mpi (transport_barrier Sim.world)))
       (fun _ => cerr_write "after the barrier") fresh_process
  = Exited 1
      (with_cerr ("MPI call failed: barrier: Other MPI error" ++ newline)
                 fresh_process).
Proof.
  exact (MPI_CHECK_then "barrier" (mpi (transport_barrier Sim.world))
           (fun _ => cerr_write "after the barrier")
           fresh_process fresh_process Sim.MPI_ERR_OTHER tt eq_refl).
Defined.

(** On a runtime whose finalized-query returns 15, the destructor exits
    with status 1 and only the failure message is printed, although the
    [finalize()] given here would leave a trace on the error stream. *)
Lemma destructor_query_failure_witness :
  15 <> 0
  /\ destructor (cerr_write "finalize() ran") (Faulty.process 15)
     = Exited 1
         (with_cerr
            ("MPI call failed: MPI_Finalized( &finalized ): Other MPI error"
               ++ newline)
            (Faulty.process 15)).
Proof.
  assert (Hnz : 15 <> 0) by discriminate.
  split; [exact Hnz|].
  exact (destructor_query_failure (T := Faulty.State)
           (cerr_write "finalize() ran") (Faulty.process 15) 15 0
           (Faulty.mkState 15)
           eq_refl Hnz).
Defined.

(** Two handles of an initialized process going out of scope one after
    the other leave one warning line and a finalized transport. *)
Lemma destructor_twice_witness :
  1 <> 0
  /\ (destructor finalize ;; destructor finalize) initialized_process
     = Returned tt (with_cerr (destructor_warning ++ endl) finalized_process).
Proof.
  assert (Hflag : 1 <> 0) by discriminate.
  split; [exact Hflag|].
  exact (proj1
           (destructor_twice finalize initialized_process
              (with_cerr (destructor_warning ++ endl) finalized_process)
              (transport initialized_process) (transport finalized_process) 1
              eq_refl eq_refl eq_refl Hflag)).
Defined.

(** With the [finalize()] modelled above, destroying an initialized
    handle leaves its members as [init] set them. *)
Lemma destructor_keeps_object_witness :
  (forall s : Machine Sim.State, self (final_state (finalize s)) = self s)
  /\ self (final_state (destructor finalize initialized_process))
     = self initialized_process.
Proof.
  assert (Hfin : forall s : Machine Sim.State, self (final_state (finalize s)) = self s)
    by exact (keeps_finalize (fun s => self s) (fun _ _ => eq_refl) (fun _ _ => eq_refl)).
  split; [exact Hfin|].
  exact (destructor_keeps_object finalize initialized_process Hfin).
Defined.

